(** * An in-memory key-value store with nested transactions

    Shallow embedding of [main.py]: the [Transaction] event log, the [IMDB]
    store with its value-count index, the transactional read paths
    [txn_get] and [txn_count], [apply_transactions], the command dispatcher
    [transition] and the read-eval loop [run].

    Python dictionaries are finite maps ([gmap]), the set of tracked keys in
    [txn_count] is a [gset], Python integers are [Z], [None] is the [None] of
    an [option], and an exception is the [Raise] branch of [result]. The
    characters of a string are taken in the ASCII range: that is where
    [isspace] and [upper] below follow [str.isspace] and [str.upper]. *)

From Stdlib Require Import ZArith String Ascii List Lia.
From stdpp Require Import gmap strings list fin_maps pretty.

Open Scope string_scope.
Open Scope list_scope.
Open Scope Z_scope.

(** ** Python values and built-ins used by the program *)

Module Py.

(** Exceptions the program can raise. *)
Inductive exn :=
| KeyError (key : string)
| ValueError
| AttributeError
| IndexError
| EOFError
| KeyboardInterrupt.

(** Outcome of a statement that may raise. *)
Inductive result (A : Type) :=
| Ok (a : A)
| Raise (e : exn).
Arguments Ok {A} a.
Arguments Raise {A} e.

(** Sequencing: the first exception raised ends the computation. *)
#[global] Instance result_bind : MBind result := λ A B k m,
  match m with
  | Ok a => k a
  | Raise e => Raise e
  end.

(** [str.isspace] on the ASCII range: tab, line feed, vertical tab, form
    feed, carriage return, the four separators 0x1c-0x1f and the space. *)
Definition isspace (c : ascii) : bool :=
  let n := nat_of_ascii c in
  ((9 <=? n) && (n <=? 13) || (28 <=? n) && (n <=? 32))%nat.

(** [str.lstrip()], [str.rstrip()] and [str.strip()]. *)
Fixpoint lstrip (s : string) : string :=
  match s with
  | String c s' => if isspace c then lstrip s' else s
  | EmptyString => EmptyString
  end.

Fixpoint rstrip (s : string) : string :=
  match s with
  | String c s' =>
      match rstrip s' with
      | EmptyString => if isspace c then EmptyString else String c EmptyString
      | r => String c r
      end
  | EmptyString => EmptyString
  end.

Definition strip (s : string) : string := rstrip (lstrip s).

(** [str.upper()] on the ASCII range: only a-z change. *)
Definition upper_char (c : ascii) : ascii :=
  let n := nat_of_ascii c in
  if ((97 <=? n) && (n <=? 122))%nat then ascii_of_nat (n - 32) else c.

Fixpoint upper (s : string) : string :=
  match s with
  | String c s' => String (upper_char c) (upper s')
  | EmptyString => EmptyString
  end.

(** [s.startswith(p)]. *)
Definition startswith (s p : string) : bool := String.prefix p s.

(** [str.split(None, maxsplit)]: words separated by runs of whitespace.
    [word] is the word being read; once [maxsplit] splits are done the
    rest of the string, from its first non-blank character on, is the last
    element. [maxsplit = None] is an unlimited number of splits. *)
Fixpoint split_from (maxsplit : option nat) (word : string) (s : string)
  : list string :=
  match s with
  | EmptyString =>
      match word with
      | EmptyString => []
      | _ => [word]
      end
  | String c s' =>
      if isspace c then
        match word with
        | EmptyString => split_from maxsplit EmptyString s'
        | _ => word :: split_from (Nat.pred <$> maxsplit) EmptyString s'
        end
      else
        match word, maxsplit with
        | EmptyString, Some O => [s]
        | _, _ => split_from maxsplit (word +:+ String c EmptyString) s'
        end
  end.

Definition split (s : string) : list string :=
  split_from None EmptyString s.

Definition split_max (s : string) (maxsplit : nat) : list string :=
  split_from (Some maxsplit) EmptyString s.

(** Truth value of a [str]: the empty string is false. *)
Definition truthy (s : string) : bool :=
  match s with
  | EmptyString => false
  | _ => true
  end.

(** Truth value of a [list]: the empty list is false. *)
Definition truthy_list {A} (l : list A) : bool :=
  match l with
  | [] => false
  | _ => true
  end.

(** [str(n)] for an [int]. *)
Definition str_of_int (n : Z) : string := pretty n.

End Py.

Import Py.

(** ** The transaction log *)

(** A mutation event: the tuples [('SET', key, value)] and
    [('DELETE', key)]. *)
Inductive Event :=
| SET (key value : string)
| DELETE (key : string).

(** [class Transaction]: it keeps no data, only the mutation events. *)
Record Transaction := { events : list Event }.

Definition Transaction_init : Transaction := {| events := [] |}.

Definition add_event (self : Transaction) (event : Event) : Transaction :=
  {| events := events self ++ [event] |}.

Definition get_events (self : Transaction) : list Event := events self.

(** ** The database *)

Module IMDB.

(** [class IMDB]. [state] is [None] or ['END']; [transactions] has the
    outermost transaction first and the latest one last. *)
Record t := {
  state : option string;
  db : gmap string string;
  transactions : list Transaction;
  counts : gmap string Z
}.

Definition init : t :=
  {| state := None; db := ∅; transactions := []; counts := ∅ |}.

Definition with_state (self : t) (s : option string) : t :=
  {| state := s; db := db self;
     transactions := transactions self; counts := counts self |}.

Definition with_db (self : t) (d : gmap string string) : t :=
  {| state := state self; db := d;
     transactions := transactions self; counts := counts self |}.

Definition with_transactions (self : t) (l : list Transaction) : t :=
  {| state := state self; db := db self;
     transactions := l; counts := counts self |}.

(** [self.db.get(key, "NULL")] *)
Definition get (self : t) (key : string) : string :=
  default "NULL" (db self !! key).

(** [set]: the old value's count goes down only when [self.db.get(key)]
    is true, that is when the key is present with a non-empty value;
    [self.counts[old] -= 1] raises [KeyError] when [old] has no count. *)
Definition set (self : t) (key value : string) : result t :=
  counts1 ←
    match db self !! key with
    | Some old =>
        if truthy old then
          match counts self !! old with
          | Some n => Ok (<[old := n - 1]> (counts self))
          | None => Raise (KeyError old)
          end
        else Ok (counts self)
    | None => Ok (counts self)
    end;
  let counts2 :=
    match counts1 !! value with
    | Some n => <[value := n + 1]> counts1
    | None => <[value := 1]> counts1
    end in
  Ok {| state := state self; db := <[key := value]> (db self);
        transactions := transactions self; counts := counts2 |}.

(** [delete]: [value] is [None] for an absent key, and [None] is never a
    key of [counts]. *)
Definition delete (self : t) (key : string) : t :=
  let value := db self !! key in
  let counts1 :=
    match value with
    | Some v =>
        match counts self !! v with
        | Some n => <[v := n - 1]> (counts self)
        | None => counts self
        end
    | None => counts self
    end in
  let db1 :=
    match db self !! key with
    | Some _ => base.delete key (db self)
    | None => db self
    end in
  {| state := state self; db := db1;
     transactions := transactions self; counts := counts1 |}.

(** [self.counts.get(value, 0)] *)
Definition count (self : t) (value : string) : Z :=
  default 0 (counts self !! value).

Definition end_ (self : t) : t := with_state self (Some "END").

(** [self.transactions[-1]], or [None] without transactions. *)
Definition latest_transaction (self : t) : option Transaction :=
  last (transactions self).

(** The inner loop of [txn_get] over the events of one transaction, latest
    first: [Some r] when the loop returns [r], [None] when it runs out. *)
Fixpoint txn_get_events (key : string) (evs : list Event)
  : option (option string) :=
  match evs with
  | [] => None
  | DELETE k :: rest =>
      if decide (k = key) then Some None else txn_get_events key rest
  | SET k v :: rest =>
      if decide (k = key) then Some (Some v) else txn_get_events key rest
  end.

(** The outer loop of [txn_get] over the transactions, latest first. *)
Fixpoint txn_get_txns (key : string) (txns : list Transaction)
  : option (option string) :=
  match txns with
  | [] => None
  | txn :: rest =>
      match txn_get_events key (reverse (get_events txn)) with
      | Some r => Some r
      | None => txn_get_txns key rest
      end
  end.

(** [txn_get]: a [str], or [None] when the last mutation is a DELETE. *)
Definition txn_get (self : t) (key : string) : option string :=
  let current_value := get self key in
  match txn_get_txns key (reverse (transactions self)) with
  | Some r => r
  | None => Some current_value
  end.

(** One iteration of the inner loop of [txn_count] on the pair
    [(current_count, keys)]. *)
Definition txn_count_event (value : string) (acc : Z * gset string)
    (event : Event) : Z * gset string :=
  let '(current_count, keys) := acc in
  match event with
  | SET k v =>
      if bool_decide (k ∈ keys) && bool_decide (v ≠ value) then
        (current_count - 1, keys ∖ {[k]})
      else if bool_decide (k ∉ keys) && bool_decide (v = value) then
        (current_count + 1, keys ∪ {[k]})
      else acc
  | DELETE k =>
      if bool_decide (k ∈ keys) then (current_count - 1, keys ∖ {[k]})
      else acc
  end.

Definition txn_count_loop (value : string) (txns : list Transaction)
    (acc : Z * gset string) : Z * gset string :=
  foldl (λ acc t, foldl (txn_count_event value) acc (get_events t))
    acc txns.

Definition txn_count (self : t) (value : string) : Z :=
  let current_count := count self value in
  fst (txn_count_loop value (transactions self) (current_count, ∅)).

(** One event of [apply_transactions]: it writes [self.db] only. *)
Definition apply_event (d : gmap string string) (event : Event)
  : gmap string string :=
  match event with
  | SET key value => <[key := value]> d
  | DELETE key =>
      match d !! key with
      | Some _ => base.delete key d
      | None => d
      end
  end.

Definition apply_transactions (self : t) : t :=
  with_db self
    (foldl (λ d t, foldl apply_event d (get_events t))
       (db self) (transactions self)).

(** The dispatcher. The result is the new object and the lines printed,
    or the exception that escapes [transition]. *)
Definition transition (self : t) (command : string)
  : result (t * list string) :=
  (* 'END' command *)
  if String.eqb (upper (strip command)) "END" then
    Ok (end_ self, [])
  (* 'GET' command *)
  else if startswith (upper (strip command)) "GET" then
    let parts := split (strip command) in
    match parts with
    | [_; key] =>
        if truthy_list (transactions self) then
          let found_value := txn_get self key in
          match found_value with
          | Some v =>
              if truthy v then Ok (self, [">>> " +:+ v])
              else Ok (self, [">>> NULL"])
          | None => Ok (self, [">>> NULL"])
          end
        else Ok (self, [">>> " +:+ get self key])
    | _ =>
        Ok (self, [">>> Invalid GET command: '" +:+ command
                     +:+ "'. Expected format: 'GET <key>'"])
    end
  (* 'SET' command *)
  else if startswith (upper (strip command)) "SET" then
    let parts := split_max (strip command) 2 in
    if (length parts <? 3)%nat then
      Ok (self, [">>> Invalid SET command: '" +:+ command
                   +:+ "'. Expected format: 'SET <key> <value>'"])
    else
      match parts with
      | [_; key; value] =>
          if truthy_list (transactions self) then
            match latest_transaction self with
            | Some txn =>
                Ok (with_transactions self
                      (<[Nat.pred (length (transactions self))
                           := add_event txn (SET key value)]>
                         (transactions self)), [])
            | None => Raise AttributeError
            end
          else
            self' ← set self key value; Ok (self', [])
      | _ => Raise ValueError
      end
  (* 'DELETE' command *)
  else if startswith (upper (strip command)) "DELETE" then
    let parts := split command in
    match parts with
    | [_; key] =>
        if truthy_list (transactions self) then
          match latest_transaction self with
          | Some txn =>
              Ok (with_transactions self
                    (<[Nat.pred (length (transactions self))
                         := add_event txn (DELETE key)]>
                       (transactions self)), [])
          | None => Raise AttributeError
          end
        else Ok (delete self key, [])
    | _ =>
        Ok (self, [">>> Invalid DELETE command: '" +:+ command
                     +:+ "'. Expected format: 'DELETE <key>'"])
    end
  (* 'COUNT' command *)
  else if startswith (upper (strip command)) "COUNT" then
    let parts := split (strip command) in
    match parts with
    | [_; value] =>
        if truthy_list (transactions self) then
          Ok (self, [">>> " +:+ str_of_int (txn_count self value)])
        else
          Ok (self, [">>> " +:+ str_of_int (default 0 (counts self !! value))])
    | _ =>
        Ok (self, [">>> Invalid COUNT command: '" +:+ command
                     +:+ "'. Expected format: 'COUNT <value>'"])
    end
  (* 'BEGIN' command: starts a new transaction *)
  else if String.eqb (upper (strip command)) "BEGIN" then
    Ok (with_transactions self (transactions self ++ [Transaction_init]), [])
  (* 'ROLLBACK' command: [pop] raises IndexError on the empty list *)
  else if String.eqb (upper (strip command)) "ROLLBACK" then
    match transactions self with
    | [] => Ok (self, [">>> TRANSACTION NOT FOUND."])
    | _ => Ok (with_transactions self (removelast (transactions self)), [])
    end
  (* 'COMMIT' command: commits all open transactions *)
  else if String.eqb (upper (strip command)) "COMMIT" then
    Ok (with_transactions (apply_transactions self) [], [])
  (* Unknown command *)
  else
    Ok (self, [">>> Unknown command: '" +:+ command +:+ "'"]).

(** What [input] meets on the standard input: a line, or an interrupt
    from the keyboard. The end of the input raises [EOFError]. *)
Inductive stdin_item :=
| Line (command : string)
| Interrupt.

(** The [while] loop of [run]: the final object, the lines printed by
    [print] (the prompt of [input] is left out) and the exception that ended
    the loop, if any. *)
Fixpoint run_loop (self : t) (stdin : list stdin_item)
  : t * list string * option exn :=
  if bool_decide (state self = Some "END") then (self, [], None)
  else
    match stdin with
    | [] => (self, [], Some EOFError)
    | Interrupt :: _ => (self, [], Some KeyboardInterrupt)
    | Line command :: rest =>
        match transition self command with
        | Ok (self1, out1) =>
            let '(self2, out2, e) := run_loop self1 rest in
            (self2, out1 ++ out2, e)
        | Raise e => (self, [], Some e)
        end
    end.

(** [run]: [KeyboardInterrupt] is caught, any other exception leaves
    [run] after the [finally] clause has printed its line. *)
Definition run (self : t) (stdin : list stdin_item)
  : t * list string * option exn :=
  let '(self1, out, e) := run_loop self stdin in
  match e with
  | Some KeyboardInterrupt =>
      (self1,
       out ++ [String "010" ">>> Interrupted by user. Exiting..."; ">>> Bye!"],
       None)
  | _ => (self1, out ++ [">>> Bye!"], e)
  end.

(** Successive calls of [transition] on one object. *)
Fixpoint transitions (self : t) (commands : list string)
  : result (t * list string) :=
  match commands with
  | [] => Ok (self, [])
  | command :: rest =>
      match transition self command with
      | Ok (self1, out1) =>
          match transitions self1 rest with
          | Ok (self2, out2) => Ok (self2, out1 ++ out2)
          | Raise e => Raise e
          end
      | Raise e => Raise e
      end
  end.

End IMDB.

(** ** Notions the properties are stated with *)

(** All events of the open transactions in chronological order: outermost
    transaction first, append order within each transaction. *)
Definition chronological (txns : list Transaction) : list Event :=
  concat (map get_events txns).

Definition event_key (event : Event) : string :=
  match event with
  | SET key _ => key
  | DELETE key => key
  end.

(** The latest event of a chronological sequence that touches [key]. *)
Definition latest_touching (key : string) (evs : list Event) : option Event :=
  last (filter (λ e, event_key e = key) evs).

(** What a read sees after [event]: the value set, or nothing. *)
Definition event_outcome (event : Event) : option string :=
  match event with
  | SET _ value => Some value
  | DELETE _ => None
  end.

(** Applying an event to the store directly, with no transaction open:
    through [set] and [delete]. *)
Definition apply_direct (self : IMDB.t) (event : Event) : result IMDB.t :=
  match event with
  | SET key value => IMDB.set self key value
  | DELETE key => Ok (IMDB.delete self key)
  end.

Fixpoint replay_direct (self : IMDB.t) (evs : list Event) : result IMDB.t :=
  match evs with
  | [] => Ok self
  | event :: rest => self1 ← apply_direct self event; replay_direct self1 rest
  end.

(** The number of keys whose committed value is [value]. *)
Definition holders (d : gmap string string) (value : string) : nat :=
  size (filter (λ kv, kv.2 = value) d).

(** The commands that [transition] dispatches to its SET or DELETE branch. *)
Definition is_write (command : string) : bool :=
  let c := upper (strip command) in
  negb (String.eqb c "END") && negb (startswith c "GET")
  && (startswith c "SET" || startswith c "DELETE").

(** A direct operation on the store. *)
Inductive store_op :=
| OpSet (key value : string)
| OpDelete (key : string).

Definition store_op_event (op : store_op) : Event :=
  match op with
  | OpSet key value => SET key value
  | OpDelete key => DELETE key
  end.

(** The index agrees with the entries. *)
Definition counts_consistent (self : IMDB.t) : Prop :=
  ∀ v, IMDB.count self v = Z.of_nat (holders (IMDB.db self) v).

(** No entry holds the empty string. *)
Definition values_nonempty (d : gmap string string) : Prop :=
  ∀ k v, d !! k = Some v → truthy v = true.

#[global] Instance Event_eq_dec : EqDecision Event.
Proof. solve_decision. Defined.

(** The keys whose latest event in [evs] sets them to [value]. *)
Definition pending_holders (value : string) (evs : list Event) : gset string :=
  filter (λ k, latest_touching k evs = Some (SET k value))
    (list_to_set (event_key <$> evs)).



(** ** The Python built-ins on examples *)

Example strip_ex : strip "  SET a  b c  " = "SET a  b c".
Proof. reflexivity. Qed.

Example split_ex : split " GET  a b " = ["GET"; "a"; "b"].
Proof. reflexivity. Qed.

Example split_max_ex : split_max "SET a  b c  d " 2 = ["SET"; "a"; "b c  d "].
Proof. reflexivity. Qed.

Example split_max_short : split_max "SET a " 2 = ["SET"; "a"].
Proof. reflexivity. Qed.

Example upper_ex : upper "set A z{`" = "SET A Z{`".
Proof. reflexivity. Qed.

Example str_of_int_ex :
  str_of_int (-12) = "-12" ∧ str_of_int 0 = "0" ∧ str_of_int 305 = "305".
Proof. repeat split; vm_compute; reflexivity. Qed.
(** ** Reading through the open transactions *)

Section txn_get.
Variable key : string.

Lemma txn_get_events_head (evs : list Event) :
  IMDB.txn_get_events key evs
  = event_outcome <$> head (filter (λ e, event_key e = key) evs).
Proof.
  induction evs as [|[k v|k] evs IH]; simpl; [done | |].
  - rewrite filter_cons. simpl. case_decide; done.
  - rewrite filter_cons. simpl. case_decide; done.
Qed.

Lemma txn_get_events_app (evs1 evs2 : list Event) :
  IMDB.txn_get_events key (evs1 ++ evs2)
  = match IMDB.txn_get_events key evs1 with
    | Some r => Some r
    | None => IMDB.txn_get_events key evs2
    end.
Proof.
  induction evs1 as [|[k v|k] evs1 IH]; simpl; [done | |];
    case_decide; done.
Qed.

Lemma txn_get_events_latest (evs : list Event) :
  IMDB.txn_get_events key (reverse evs)
  = event_outcome <$> latest_touching key evs.
Proof.
  unfold latest_touching.
  by rewrite txn_get_events_head, filter_reverse, head_reverse.
Qed.

Lemma chronological_snoc (txns : list Transaction) (txn : Transaction) :
  chronological (txns ++ [txn]) = chronological txns ++ get_events txn.
Proof.
  unfold chronological. rewrite map_app, concat_app. simpl.
  by rewrite app_nil_r.
Qed.

Lemma txn_get_txns_chronological (txns : list Transaction) :
  IMDB.txn_get_txns key (reverse txns)
  = IMDB.txn_get_events key (reverse (chronological txns)).
Proof.
  induction txns as [|txn txns IH] using rev_ind; [done|].
  rewrite reverse_snoc, chronological_snoc, reverse_app. simpl.
  by rewrite txn_get_events_app, IH.
Qed.

Lemma latest_touching_app (evs1 evs2 : list Event) :
  latest_touching key (evs1 ++ evs2)
  = match latest_touching key evs2 with
    | Some e => Some e
    | None => latest_touching key evs1
    end.
Proof.
  unfold latest_touching. rewrite filter_app, last_app.
  by destruct (last (filter _ evs2)).
Qed.
End txn_get.

(** C4. [txn_get] returns what the chronologically latest event touching the
    key says: nothing ([None], printed as NULL) after a DELETE, the value
    after a SET, and [get] of the committed store when no event of any open
    transaction touches the key. Hence the events of the innermost
    transaction decide the result whenever one of them touches the key,
    whatever the outer transactions did to it. *)
Theorem C4_txn_get_latest_event (self : IMDB.t) (key : string) :
  IMDB.txn_get self key
  = match latest_touching key (chronological (IMDB.transactions self)) with
    | Some (DELETE _) => None
    | Some (SET _ v) => Some v
    | None => Some (IMDB.get self key)
    end
  ∧ ∀ (outer : list Transaction) (inner : Transaction),
      IMDB.txn_get (IMDB.with_transactions self (outer ++ [inner])) key
      = match latest_touching key (get_events inner) with
        | Some (DELETE _) => None
        | Some (SET _ v) => Some v
        | None => IMDB.txn_get (IMDB.with_transactions self outer) key
        end.
Proof.
  assert (Hmain : ∀ s : IMDB.t,
    IMDB.txn_get s key
    = match latest_touching key (chronological (IMDB.transactions s)) with
      | Some e => event_outcome e
      | None => Some (IMDB.get s key)
      end).
  { intros s. unfold IMDB.txn_get.
    rewrite txn_get_txns_chronological, txn_get_events_latest.
    by destruct (latest_touching _ _). }
  split.
  - rewrite Hmain. by destruct (latest_touching _ _) as [[]|].
  - intros outer inner. rewrite !Hmain. simpl.
    rewrite chronological_snoc, latest_touching_app.
    by destruct (latest_touching key (get_events inner)) as [[]|].
Qed.

(** ** Counting through the open transactions *)

Section txn_count.
Variable value : string.

Lemma txn_count_loop_chronological (txns : list Transaction)
    (acc : Z * gset string) :
  IMDB.txn_count_loop value txns acc
  = foldl (IMDB.txn_count_event value) acc (chronological txns).
Proof.
  unfold IMDB.txn_count_loop, chronological.
  revert acc. induction txns as [|txn txns IH]; intros acc; simpl; [done|].
  by rewrite foldl_app, IH.
Qed.

(** Every key of the tracked set has been counted once: the running count
    is always the committed count plus the size of the set. *)
Lemma txn_count_event_tracked (acc : Z * gset string) (event : Event) :
  (IMDB.txn_count_event value acc event).1
    - Z.of_nat (size (IMDB.txn_count_event value acc event).2)
  = acc.1 - Z.of_nat (size acc.2).
Proof.
  assert (Hdrop : ∀ (k : string) (keys : gset string), k ∈ keys →
    Z.of_nat (size (keys ∖ {[k]})) = Z.of_nat (size keys) - 1).
  { intros k keys Hin. rewrite size_difference by set_solver.
    rewrite size_singleton.
    assert (size keys ≠ 0%nat) by (apply size_non_empty_iff; set_solver).
    lia. }
  assert (Hadd : ∀ (k : string) (keys : gset string), k ∉ keys →
    Z.of_nat (size (keys ∪ {[k]})) = Z.of_nat (size keys) + 1).
  { intros k keys Hout. rewrite size_union by set_solver.
    rewrite size_singleton. lia. }
  destruct acc as [c keys], event as [k v|k]; simpl;
    repeat (case_bool_decide; simpl); try done;
    rewrite ?Hdrop, ?Hadd by done; lia.
Qed.

Lemma txn_count_events_tracked (evs : list Event) (acc : Z * gset string) :
  (foldl (IMDB.txn_count_event value) acc evs).1
    - Z.of_nat (size (foldl (IMDB.txn_count_event value) acc evs).2)
  = acc.1 - Z.of_nat (size acc.2).
Proof.
  revert acc. induction evs as [|e evs IH]; intros acc; simpl; [done|].
  by rewrite IH, txn_count_event_tracked.
Qed.

(** A key enters the tracked set only through a SET to the counted
    value. *)
Lemma txn_count_events_untracked (k : string) (evs : list Event)
    (acc : Z * gset string) :
  SET k value ∉ evs → k ∉ acc.2 →
  k ∉ (foldl (IMDB.txn_count_event value) acc evs).2.
Proof.
  revert acc. induction evs as [|e evs IH]; intros acc Hevs Hk; simpl; [done|].
  apply not_elem_of_cons in Hevs as [He Hevs].
  apply IH; [done|].
  destruct acc as [c keys], e as [k' v'|k']; simpl in *;
    repeat (case_bool_decide; simpl);
    rewrite ?elem_of_difference, ?elem_of_union, ?elem_of_singleton;
    try tauto.
  intros [?|Heq]; [done|]. congruence.
Qed.

(** A SET of an untracked key to another value changes nothing. *)
Lemma txn_count_event_overwrite (k v2 : string) (acc : Z * gset string) :
  v2 ≠ value → k ∉ acc.2 →
  IMDB.txn_count_event value acc (SET k v2) = acc.
Proof.
  intros Hv Hk. destruct acc as [c keys]. simpl in *.
  rewrite (bool_decide_eq_false_2 (k ∈ keys)) by done.
  rewrite (bool_decide_eq_false_2 (v2 = value)) by done.
  by rewrite andb_false_r.
Qed.
End txn_count.

(** C10. The speculative count is never below the committed count: a
    decrement is always for a key that an earlier increment put into the
    tracked set. *)
Theorem C10_txn_count_ge_count (self : IMDB.t) (value : string) :
  IMDB.count self value ≤ IMDB.txn_count self value.
Proof.
  unfold IMDB.txn_count. rewrite txn_count_loop_chronological.
  pose proof (txn_count_events_tracked value
    (chronological (IMDB.transactions self)) (IMDB.count self value, ∅)) as H.
  cbn [fst snd] in H. rewrite size_empty in H. lia.
Qed.

(** C3. A key whose committed value is the counted value and that a
    transaction event overwrites with another value, no earlier event having
    set it to the counted value, stays counted: the overwriting event leaves
    the speculative count as it is without that event. *)
Theorem C3_txn_count_keeps_committed_key
    (self : IMDB.t) (value key v2 : string)
    (outer inner : list Transaction) (pre post : list Event) :
  IMDB.db self !! key = Some value →
  v2 ≠ value →
  SET key value ∉ chronological outer ++ pre →
  IMDB.txn_count
    (IMDB.with_transactions self
       (outer ++ {| events := pre ++ SET key v2 :: post |} :: inner)) value
  = IMDB.txn_count
      (IMDB.with_transactions self
         (outer ++ {| events := pre ++ post |} :: inner)) value.
Proof.
  intros _ Hv Hpre. unfold IMDB.txn_count. simpl.
  rewrite !txn_count_loop_chronological. unfold chronological.
  rewrite !map_app, !concat_app. simpl. unfold get_events at 2 4. simpl.
  fold (chronological outer). fold (chronological inner).
  rewrite !(assoc (++) (chronological outer)).
  rewrite <- !(assoc (++) (chronological outer ++ pre)).
  rewrite !(foldl_app _ (chronological outer ++ pre)). simpl.
  rewrite txn_count_event_overwrite; [done..|].
  by apply txn_count_events_untracked.
Qed.

Lemma C3_txn_count_keeps_committed_key_witness :
  let self :=
    {| IMDB.state := None; IMDB.db := {["a" := "1"]};
       IMDB.transactions := []; IMDB.counts := {["1" := 1]} |} in
  IMDB.txn_count
    (IMDB.with_transactions self [ {| events := [SET "a" "2"] |} ]) "1"
  = IMDB.txn_count (IMDB.with_transactions self [ {| events := [] |} ]) "1"
  ∧ IMDB.txn_count
      (IMDB.with_transactions self [ {| events := [SET "a" "2"] |} ]) "1" = 1.
Proof.
  split.
  - apply (C3_txn_count_keeps_committed_key _ "1" "a" "2" [] [] [] []).
    + reflexivity.
    + discriminate.
    + simpl. apply not_elem_of_nil.
  - vm_compute. reflexivity.
Defined.

(** ** The value-count index under direct writes *)

(** [set] writes the entry and the counts only. *)
Lemma set_frame (self self' : IMDB.t) (key value : string) :
  IMDB.set self key value = Ok self' →
  IMDB.db self' = <[key := value]> (IMDB.db self)
  ∧ IMDB.state self' = IMDB.state self
  ∧ IMDB.transactions self' = IMDB.transactions self.
Proof.
  unfold IMDB.set. intros H.
  destruct (IMDB.db self !! key) as [old|]; simpl in H.
  - destruct (truthy old); simpl in H;
      [destruct (IMDB.counts self !! old); simpl in H; [|done]|];
      by injection H as <-.
  - by injection H as <-.
Qed.

Section holders.
Implicit Types (d : gmap string string) (c : gmap string Z).

Lemma holders_insert_fresh d k x v :
  d !! k = None →
  holders (<[k := x]> d) v
  = (holders d v + if decide (x = v) then 1 else 0)%nat.
Proof.
  intros Hk. unfold holders. rewrite map_filter_insert. simpl.
  case_decide.
  - rewrite map_size_insert_None; [lia|].
    apply map_lookup_filter_None. by left.
  - rewrite delete_id by done. lia.
Qed.

Lemma holders_lookup d k y v :
  d !! k = Some y →
  holders d v
  = (holders (delete k d) v + if decide (y = v) then 1 else 0)%nat.
Proof.
  intros Hk. rewrite <- (insert_delete_id d k y) at 1 by done.
  apply holders_insert_fresh, lookup_delete_eq.
Qed.

Lemma holders_insert d k x v :
  holders (<[k := x]> d) v
  = (holders (delete k d) v + if decide (x = v) then 1 else 0)%nat.
Proof.
  rewrite <- insert_delete_eq. apply holders_insert_fresh, lookup_delete_eq.
Qed.

Lemma holders_empty v : holders ∅ v = 0%nat.
Proof. unfold holders. by rewrite map_filter_empty, map_size_empty. Qed.

Lemma count_decrement c old n v :
  c !! old = Some n →
  default 0 (<[old := n - 1]> c !! v)
  = default 0 (c !! v) - (if decide (old = v) then 1 else 0).
Proof.
  intros Hold. destruct (decide (old = v)) as [->|Hne].
  - rewrite lookup_insert_eq, Hold. simpl. lia.
  - rewrite lookup_insert_ne by done. lia.
Qed.

Lemma count_increment c value v :
  default 0 (match c !! value with
             | Some n => <[value := n + 1]> c
             | None => <[value := 1]> c
             end !! v)
  = default 0 (c !! v) + (if decide (value = v) then 1 else 0).
Proof.
  destruct (decide (value = v)) as [->|Hne].
  - destruct (c !! v) as [n|] eqn:Hv; rewrite lookup_insert_eq; simpl; lia.
  - destruct (c !! value); rewrite lookup_insert_ne by done; lia.
Qed.

(** A consistent index has an entry for every value held by a key. *)
Lemma consistent_count_present (self : IMDB.t) k old :
  counts_consistent self → IMDB.db self !! k = Some old →
  ∃ n, IMDB.counts self !! old = Some n.
Proof.
  intros Hc Hk. specialize (Hc old). unfold IMDB.count in Hc.
  rewrite (holders_lookup _ k old old Hk) in Hc.
  rewrite decide_True in Hc by done.
  destruct (IMDB.counts self !! old) as [n|]; [by exists n|].
  simpl in Hc. lia.
Qed.

Lemma set_consistent (self : IMDB.t) (key value : string) :
  counts_consistent self → values_nonempty (IMDB.db self) →
  truthy value = true →
  ∃ self', IMDB.set self key value = Ok self'
           ∧ counts_consistent self' ∧ values_nonempty (IMDB.db self').
Proof.
  intros Hc Hne Hvalue. unfold IMDB.set.
  destruct (IMDB.db self !! key) as [old|] eqn:Hk.
  - rewrite (Hne _ _ Hk).
    destruct (consistent_count_present _ _ _ Hc Hk) as [n Hn].
    rewrite Hn. simpl. eexists. split; [done|]. split.
    + intros v. unfold IMDB.count. simpl.
      rewrite count_increment, count_decrement by done.
      rewrite holders_insert. pose proof (Hc v) as Hv.
      unfold IMDB.count in Hv. rewrite (holders_lookup _ _ _ v Hk) in Hv.
      repeat case_decide; lia.
    + simpl. intros k v [[_ <-]|[_ ?]]%lookup_insert_Some; eauto.
  - simpl. eexists. split; [done|]. split.
    + intros v. unfold IMDB.count. simpl.
      rewrite count_increment, holders_insert_fresh by done.
      pose proof (Hc v) as Hv. unfold IMDB.count in Hv.
      case_decide; lia.
    + simpl. intros k v [[_ <-]|[_ ?]]%lookup_insert_Some; eauto.
Qed.

Lemma delete_consistent (self : IMDB.t) (key : string) :
  counts_consistent self → values_nonempty (IMDB.db self) →
  counts_consistent (IMDB.delete self key)
  ∧ values_nonempty (IMDB.db (IMDB.delete self key)).
Proof.
  intros Hc Hne. unfold IMDB.delete.
  destruct (IMDB.db self !! key) as [old|] eqn:Hk; [|done].
  destruct (consistent_count_present _ _ _ Hc Hk) as [n Hn].
  rewrite Hn. split.
  - intros v. unfold IMDB.count. simpl.
    rewrite count_decrement by done.
    pose proof (Hc v) as Hv. unfold IMDB.count in Hv.
    rewrite (holders_lookup _ _ _ v Hk) in Hv. case_decide; lia.
  - simpl. intros k v [_ ?]%lookup_delete_Some. eauto.
Qed.
End holders.

(** X15. When no operation sets the empty string, direct writes from the
    empty store never raise and keep the index exact. *)
Lemma direct_writes_consistent (ops : list store_op) :
  Forall (λ op, match op with
                | OpSet _ value => truthy value = true
                | OpDelete _ => True
                end) ops →
  ∃ self, replay_direct IMDB.init (map store_op_event ops) = Ok self
          ∧ ∀ v, IMDB.count self v = Z.of_nat (holders (IMDB.db self) v).
Proof.
  assert (Hgen : ∀ self,
    counts_consistent self → values_nonempty (IMDB.db self) →
    Forall (λ op, match op with
                  | OpSet _ value => truthy value = true
                  | OpDelete _ => True
                  end) ops →
    ∃ self', replay_direct self (map store_op_event ops) = Ok self'
             ∧ counts_consistent self').
  { induction ops as [|op ops IH]; intros self Hc Hne Hops; simpl.
    - by exists self.
    - apply Forall_cons in Hops as [Hop Hops]. destruct op as [k v|k]; simpl.
      + destruct (set_consistent self k v Hc Hne Hop) as (s1 & -> & Hc1 & Hne1).
        simpl. by apply IH.
      + destruct (delete_consistent self k Hc Hne) as [Hc1 Hne1].
        by apply IH. }
  apply Hgen.
  - intros v. unfold IMDB.count. simpl. by rewrite lookup_empty, holders_empty.
  - intros k v. simpl. by rewrite lookup_empty.
Qed.

(** C6. With the empty string as a value the index goes stale: [set] tests
    the truth value of the old value, so overwriting a key that holds the
    empty string does not decrement its count. *)
Theorem C6_count_stale_after_empty_value :
  ∃ self,
    replay_direct IMDB.init
      (map store_op_event [OpSet "a" ""; OpSet "a" "x"]) = Ok self
    ∧ IMDB.db self = {["a" := "x"]}
    ∧ IMDB.count self "" = 1
    ∧ holders (IMDB.db self) "" = 0%nat.
Proof.
  eexists. split; [vm_compute; reflexivity|].
  repeat split; vm_compute; reflexivity.
Qed.

(** ** Reading the committed store *)

(** C8. [get] returns the stored value of a present key and the string
    "NULL" for an absent one. The sentinel is an ordinary string: the result
    is "NULL" exactly when the key is absent or holds the string "NULL", and
    it differs from the result for an absent key for every other stored
    value. *)
Theorem C8_get_sentinel_in_band (self : IMDB.t) (key : string) :
  IMDB.get self key = default "NULL" (IMDB.db self !! key)
  ∧ (IMDB.get self key = "NULL"
     ↔ IMDB.db self !! key = None ∨ IMDB.db self !! key = Some "NULL").
Proof.
  unfold IMDB.get. split; [done|].
  destruct (IMDB.db self !! key) as [v|]; simpl; [|tauto].
  split; [intros ->; by right|]. intros [?|?]; congruence.
Qed.

(** C8, counterexample. A key that holds the string "NULL" reads like an
    absent key. *)
Lemma C8_get_null_value_counterexample :
  let self :=
    {| IMDB.state := None; IMDB.db := {["a" := "NULL"]};
       IMDB.transactions := []; IMDB.counts := {["NULL" := 1]} |} in
  IMDB.set IMDB.init "a" "NULL" = Ok self
  ∧ IMDB.db self !! "a" = Some "NULL"
  ∧ IMDB.db self !! "b" = None
  ∧ IMDB.get self "a" = IMDB.get self "b"
  ∧ ¬ (IMDB.get self "a" = "NULL" ↔ IMDB.db self !! "a" = None).
Proof.
  repeat split; try (vm_compute; reflexivity).
  intros [H _]. specialize (H eq_refl). vm_compute in H. discriminate.
Qed.

(** ** The dispatcher *)

Lemma transition_rollback (self : IMDB.t) :
  IMDB.transition self "ROLLBACK"
  = match IMDB.transactions self with
    | [] => Ok (self, [">>> TRANSACTION NOT FOUND."])
    | _ =>
        Ok (IMDB.with_transactions self
              (removelast (IMDB.transactions self)), [])
    end.
Proof. reflexivity. Qed.

Lemma transition_begin (self : IMDB.t) :
  IMDB.transition self "BEGIN"
  = Ok (IMDB.with_transactions self
          (IMDB.transactions self ++ [Transaction_init]), []).
Proof. reflexivity. Qed.

Lemma transition_commit (self : IMDB.t) :
  IMDB.transition self "COMMIT"
  = Ok (IMDB.with_transactions (IMDB.apply_transactions self) [], []).
Proof. reflexivity. Qed.

(** C9. ROLLBACK with open transactions removes the innermost log and
    nothing else: entries and counts are as before and nothing is printed.
    With no open transaction it prints a message and changes nothing. *)
Theorem C9_rollback_pops_or_reports
    (st : option string) (d : gmap string string) (c : gmap string Z)
    (txns : list Transaction) (txn : Transaction) :
  IMDB.transition
    {| IMDB.state := st; IMDB.db := d;
       IMDB.transactions := txns ++ [txn]; IMDB.counts := c |} "ROLLBACK"
  = Ok ({| IMDB.state := st; IMDB.db := d;
           IMDB.transactions := txns; IMDB.counts := c |}, [])
  ∧ IMDB.transition
      {| IMDB.state := st; IMDB.db := d;
         IMDB.transactions := []; IMDB.counts := c |} "ROLLBACK"
    = Ok ({| IMDB.state := st; IMDB.db := d;
             IMDB.transactions := []; IMDB.counts := c |},
          [">>> TRANSACTION NOT FOUND."]).
Proof.
  split; [|reflexivity].
  rewrite transition_rollback. unfold IMDB.with_transactions. simpl.
  rewrite removelast_last. by destruct txns.
Qed.

(** [split] with a bound on the number of splits returns at most one
    element more than the bound. *)
Lemma split_from_length (s word : string) (n : nat) :
  (length (split_from (Some n) word s)
   ≤ match word with
     | EmptyString => S n
     | _ => S (S (Nat.pred n))
     end)%nat.
Proof.
  revert word n. induction s as [|c s IH]; intros word n; simpl.
  - destruct word; simpl; lia.
  - destruct (isspace c).
    + destruct word as [|c' word']; simpl.
      * apply (IH EmptyString n).
      * pose proof (IH EmptyString (Nat.pred n)) as H. simpl in H. lia.
    + destruct word as [|c' word'].
      * destruct n as [|n]; simpl; [lia|].
        apply (IH (String c EmptyString) (S n)).
      * apply (IH (String c' word' +:+ String c EmptyString) n).
Qed.

Lemma split_max_2_length (s : string) : (length (split_max s 2) ≤ 3)%nat.
Proof. apply (split_from_length s EmptyString 2). Qed.

Lemma insert_latest (txns : list Transaction) (txn txn' : Transaction) :
  <[Nat.pred (length (txns ++ [txn])) := txn']> (txns ++ [txn])
  = txns ++ [txn'].
Proof.
  rewrite length_app. simpl.
  replace (Nat.pred (length txns + 1)) with (length txns + 0)%nat by lia.
  by rewrite insert_app_r.
Qed.

(** Inside a transaction a SET or DELETE command only appends to the
    innermost log. *)
Lemma transition_write_in_transaction
    (st : option string) (d : gmap string string) (c : gmap string Z)
    (txns : list Transaction) (txn : Transaction) (command : string) :
  is_write command = true →
  ∃ txn' out,
    IMDB.transition
      {| IMDB.state := st; IMDB.db := d;
         IMDB.transactions := txns ++ [txn]; IMDB.counts := c |} command
    = Ok ({| IMDB.state := st; IMDB.db := d;
             IMDB.transactions := txns ++ [txn']; IMDB.counts := c |}, out).
Proof.
  intros Hw. unfold is_write in Hw. unfold IMDB.transition.
  assert (Hopen : truthy_list (txns ++ [txn]) = true) by by destruct txns.
  destruct (String.eqb (upper (strip command)) "END"); [done|].
  destruct (startswith (upper (strip command)) "GET"); [done|].
  simpl in Hw.
  unfold IMDB.latest_transaction, IMDB.with_transactions. simpl.
  rewrite Hopen, last_snoc.
  destruct (startswith (upper (strip command)) "SET").
  - pose proof (split_max_2_length (strip command)) as Hlen.
    destruct (split_max (strip command) 2) as [|p1 [|p2 [|p3 [|p4 parts]]]];
      simpl in *; try by eexists _, _.
    + rewrite insert_latest. by eexists _, _.
    + lia.
  - simpl in Hw. rewrite Hw.
    destruct (split command) as [|p1 [|p2 [|p3 parts]]]; try by eexists _, _.
    rewrite insert_latest. by eexists _, _.
Qed.

(** C7. BEGIN, then any SET and DELETE commands, then ROLLBACK: no command
    raises and the object is as before BEGIN, entries, counts and the stack
    of open transactions included. *)
Theorem C7_rollback_restores (self : IMDB.t) (writes : list string) :
  Forall (λ command, is_write command = true) writes →
  ∃ out,
    IMDB.transitions self ("BEGIN" :: writes ++ ["ROLLBACK"]) = Ok (self, out).
Proof.
  intros Hwrites. destruct self as [st d txns c].
  cbn [IMDB.transitions]. rewrite transition_begin.
  unfold IMDB.with_transactions. simpl.
  generalize Transaction_init as txn. intros txn.
  assert (Hloop : ∃ out,
    IMDB.transitions
      {| IMDB.state := st; IMDB.db := d;
         IMDB.transactions := txns ++ [txn]; IMDB.counts := c |}
      (writes ++ ["ROLLBACK"])
    = Ok ({| IMDB.state := st; IMDB.db := d;
             IMDB.transactions := txns; IMDB.counts := c |}, out)).
  { revert txn. induction Hwrites as [|command writes Hw _ IH]; intros txn.
    - simpl. rewrite transition_rollback. unfold IMDB.with_transactions.
      simpl. rewrite removelast_last. destruct txns; by eexists.
    - destruct (transition_write_in_transaction st d c txns txn command Hw)
        as (txn' & out1 & Hstep).
      simpl. rewrite Hstep. destruct (IH txn') as [out2 ->]. by eexists. }
  destruct Hloop as [out ->]. by eexists.
Qed.

Lemma C7_rollback_restores_witness :
  let self :=
    {| IMDB.state := None; IMDB.db := {["a" := "5"]};
       IMDB.transactions := []; IMDB.counts := {["5" := 1]} |} in
  let writes := ["SET a 6"; "DELETE a"; "set b 5"; "SET c"] in
  Forall (λ command, is_write command = true) writes
  ∧ ∃ out,
      IMDB.transitions self ("BEGIN" :: writes ++ ["ROLLBACK"])
      = Ok (self, out).
Proof.
  assert (Hwrites : Forall (λ command, is_write command = true)
                      ["SET a 6"; "DELETE a"; "set b 5"; "SET c"])
    by (repeat constructor).
  split; [exact Hwrites|].
  exact (C7_rollback_restores _ _ Hwrites).
Defined.

(** ** SET and DELETE commands with no transaction open *)

(** [split] never returns an empty string. *)
Lemma split_from_nonempty (s word : string) (maxsplit : option nat) :
  Forall (λ part, truthy part = true) (split_from maxsplit word s).
Proof.
  revert word maxsplit.
  induction s as [|c s IH]; intros word maxsplit; simpl.
  - destruct word; by repeat constructor.
  - destruct (isspace c).
    + destruct word; [apply IH|]. constructor; [done|apply IH].
    + destruct word as [|c' word'].
      * destruct maxsplit as [[|n]|]; [by repeat constructor|apply IH..].
      * apply IH.
Qed.

(** With no transaction open, a SET or DELETE command read by [transition]
    never raises and keeps the index exact: the dispatcher passes no empty
    value to [set]. *)
Lemma transition_write_consistent (self : IMDB.t) (command : string) :
  IMDB.transactions self = [] →
  counts_consistent self → values_nonempty (IMDB.db self) →
  is_write command = true →
  ∃ self' out,
    IMDB.transition self command = Ok (self', out)
    ∧ IMDB.transactions self' = []
    ∧ counts_consistent self' ∧ values_nonempty (IMDB.db self').
Proof.
  intros Hclosed Hc Hne Hw. unfold is_write in Hw. unfold IMDB.transition.
  destruct (String.eqb (upper (strip command)) "END"); [done|].
  destruct (startswith (upper (strip command)) "GET"); [done|].
  simpl in Hw. rewrite Hclosed. simpl.
  destruct (startswith (upper (strip command)) "SET").
  - pose proof (split_max_2_length (strip command)) as Hlen.
    pose proof (split_from_nonempty (strip command) EmptyString (Some 2%nat))
      as Hparts.
    fold (split_max (strip command) 2) in Hparts.
    destruct (split_max (strip command) 2) as [|p1 [|p2 [|p3 [|p4 parts]]]];
      simpl in *; try by eexists _, _.
    + apply Forall_cons in Hparts as [_ Hparts].
      apply Forall_cons in Hparts as [_ Hparts].
      apply Forall_cons in Hparts as [Hp3 _].
      destruct (set_consistent self p2 p3 Hc Hne Hp3) as (s1 & Hset & Hc1 & Hne1).
      rewrite Hset. simpl. exists s1. eexists. repeat split; try done.
      apply set_frame in Hset as (_ & _ & ->). done.
    + lia.
  - simpl in Hw. rewrite Hw.
    destruct (split command) as [|p1 [|p2 [|p3 parts]]]; try by eexists _, _.
    destruct (delete_consistent self p2 Hc Hne) as [Hc1 Hne1].
    by eexists _, _.
Qed.

(** X16. SET and DELETE commands read by [transition] from the empty store,
    with no transaction ever open, never raise and keep the index exact,
    whatever the commands are, malformed ones included. *)
Lemma direct_commands_consistent (commands : list string) :
  Forall (λ command, is_write command = true) commands →
  ∃ self out,
    IMDB.transitions IMDB.init commands = Ok (self, out)
    ∧ ∀ v, IMDB.count self v = Z.of_nat (holders (IMDB.db self) v).
Proof.
  assert (Hgen : ∀ self,
    IMDB.transactions self = [] →
    counts_consistent self → values_nonempty (IMDB.db self) →
    Forall (λ command, is_write command = true) commands →
    ∃ self' out, IMDB.transitions self commands = Ok (self', out)
                 ∧ counts_consistent self').
  { induction commands as [|command commands IH];
      intros self Hclosed Hc Hne Hall; simpl.
    - by exists self, [].
    - apply Forall_cons in Hall as [Hw Hall].
      destruct (transition_write_consistent self command Hclosed Hc Hne Hw)
        as (s1 & out1 & -> & Hclosed1 & Hc1 & Hne1).
      destruct (IH s1 Hclosed1 Hc1 Hne1 Hall) as (s2 & out2 & -> & Hc2).
      by eexists _, _. }
  apply Hgen; [done| |].
  - intros v. unfold IMDB.count. simpl. by rewrite lookup_empty, holders_empty.
  - intros k v. simpl. by rewrite lookup_empty.
Qed.

(** ** COMMIT *)

Lemma apply_transactions_chronological (self : IMDB.t) :
  IMDB.db (IMDB.apply_transactions self)
  = foldl IMDB.apply_event (IMDB.db self)
      (chronological (IMDB.transactions self)).
Proof.
  unfold IMDB.apply_transactions, chronological. simpl.
  generalize (IMDB.db self) as d.
  induction (IMDB.transactions self) as [|txn txns IH]; intros d; simpl; [done|].
  by rewrite foldl_app, IH.
Qed.

Lemma apply_direct_db (self self' : IMDB.t) (event : Event) :
  apply_direct self event = Ok self' →
  IMDB.db self' = IMDB.apply_event (IMDB.db self) event
  ∧ IMDB.state self' = IMDB.state self
  ∧ IMDB.transactions self' = IMDB.transactions self.
Proof.
  destruct event as [key value|key]; simpl.
  - apply set_frame.
  - intros H. by injection H as <-.
Qed.

(** X17. COMMIT and the direct replay of the logged events agree on the
    entries, whenever the replay does not raise, and COMMIT empties the
    stack and keeps [counts] as it was. *)
Lemma commit_entries_replay (self direct : IMDB.t) :
  replay_direct (IMDB.with_transactions self [])
    (chronological (IMDB.transactions self)) = Ok direct →
  ∃ committed,
    IMDB.transition self "COMMIT" = Ok (committed, [])
    ∧ IMDB.db committed = IMDB.db direct
    ∧ IMDB.transactions committed = IMDB.transactions direct
    ∧ IMDB.transactions committed = []
    ∧ IMDB.counts committed = IMDB.counts self.
Proof.
  intros Hreplay. rewrite transition_commit. eexists. split; [done|].
  unfold IMDB.with_transactions at 1 2 3 4.
  cbn [IMDB.db IMDB.transactions IMDB.counts].
  rewrite apply_transactions_chronological.
  assert (Hgen : ∀ evs s s', replay_direct s evs = Ok s' →
    IMDB.db s' = foldl IMDB.apply_event (IMDB.db s) evs
    ∧ IMDB.transactions s' = IMDB.transactions s).
  { induction evs as [|e evs IH]; intros s s' H; simpl in *.
    - by injection H as <-.
    - destruct (apply_direct s e) as [s1|] eqn:He; simpl in H; [|done].
      apply apply_direct_db in He as (<- & _ & <-). by apply IH. }
  apply Hgen in Hreplay as [-> ->]. done.
Qed.

(** C1. COMMIT writes the entries only: after BEGIN, SET a 1, COMMIT the
    entries and the emptied stack are those of the direct [set], but the
    count of the value 1 is still 0 where the direct [set] makes it 1. *)
Theorem C1_commit_leaves_counts_stale :
  let committed :=
    {| IMDB.state := None; IMDB.db := {["a" := "1"]};
       IMDB.transactions := []; IMDB.counts := ∅ |} in
  let direct :=
    {| IMDB.state := None; IMDB.db := {["a" := "1"]};
       IMDB.transactions := []; IMDB.counts := {["1" := 1]} |} in
  IMDB.transitions IMDB.init ["BEGIN"; "SET a 1"; "COMMIT"]
  = Ok (committed, [])
  ∧ replay_direct IMDB.init [SET "a" "1"] = Ok direct
  ∧ IMDB.transitions IMDB.init ["SET a 1"] = Ok (direct, [])
  ∧ IMDB.count committed "1" = 0
  ∧ IMDB.count direct "1" = 1
  ∧ IMDB.counts committed ≠ IMDB.counts direct.
Proof.
  repeat split; try (vm_compute; reflexivity).
  intros H. apply (f_equal (λ c : gmap string Z, c !! "1")) in H.
  vm_compute in H. discriminate.
Qed.

(** ** Scenarios *)

Example scenario_A :
  ∃ self,
    IMDB.transitions IMDB.init ["SET a 5"; "SET b 6"; "COUNT 5"]
    = Ok (self, [">>> 1"]).
Proof. eexists. vm_compute. reflexivity. Qed.

Example scenario_B :
  ∃ self,
    IMDB.transitions IMDB.init
      ["SET a 5"; "BEGIN"; "SET a 6"; "GET a"; "ROLLBACK"; "GET a"]
    = Ok (self, [">>> 6"; ">>> 5"]).
Proof. eexists. vm_compute. reflexivity. Qed.

Example scenario_D :
  ∃ self,
    IMDB.transitions IMDB.init ["BEGIN"; "BEGIN"; "SET x 9"; "COMMIT"; "GET x"]
    = Ok (self, [">>> 9"])
    ∧ IMDB.transactions self = [].
Proof. eexists. split; vm_compute; reflexivity. Qed.

Example scenario_E :
  IMDB.transitions IMDB.init ["ROLLBACK"]
  = Ok (IMDB.init, [">>> TRANSACTION NOT FOUND."]).
Proof. vm_compute. reflexivity. Qed.

Example run_reports_errors :
  ∃ self,
    IMDB.run IMDB.init
      [IMDB.Line "GET"; IMDB.Line "SET a"; IMDB.Line "FOO";
       IMDB.Line "rollback"; IMDB.Line " end "]
    = (self,
       [">>> Invalid GET command: 'GET'. Expected format: 'GET <key>'";
        ">>> Invalid SET command: 'SET a'. Expected format: 'SET <key> <value>'";
        ">>> Unknown command: 'FOO'";
        ">>> TRANSACTION NOT FOUND.";
        ">>> Bye!"], None)
    ∧ IMDB.db self = ∅ ∧ IMDB.counts self = ∅.
Proof. eexists. repeat split; vm_compute; reflexivity. Qed.

(** The end of the input is not caught by [run] either. *)
Example run_end_of_input :
  IMDB.run IMDB.init [IMDB.Line "BEGIN"]
  = (IMDB.with_transactions IMDB.init [Transaction_init],
     [">>> Bye!"], Some EOFError).
Proof. vm_compute. reflexivity. Qed.

Example run_interrupt :
  IMDB.run IMDB.init [IMDB.Line "BEGIN"; IMDB.Interrupt; IMDB.Line "END"]
  = (IMDB.with_transactions IMDB.init [Transaction_init],
     [String "010" ">>> Interrupted by user. Exiting..."; ">>> Bye!"], None).
Proof. vm_compute. reflexivity. Qed.

(** C2. SET a 1; BEGIN; DELETE a; COUNT 1 prints 1, not 0: the pending
    DELETE of a key counted in the committed store is not seen by
    [txn_count]. COMMIT; GET a then prints NULL. *)
Theorem C2_scenario_pending_delete_count :
  ∃ self self',
    IMDB.transitions IMDB.init ["SET a 1"; "BEGIN"; "DELETE a"; "COUNT 1"]
    = Ok (self, [">>> 1"])
    ∧ IMDB.txn_count self "1" = 1
    ∧ IMDB.transitions self ["COMMIT"; "GET a"] = Ok (self', [">>> NULL"]).
Proof.
  do 2 eexists. split; [vm_compute; reflexivity|].
  split; vm_compute; reflexivity.
Qed.

(** C5. After a COMMIT has written an entry without its count, a direct SET
    of that key raises [KeyError] in [set]; [run] does not catch it, so the
    loop ends with the exception and the remaining commands are not read. *)
Theorem C5_set_after_commit_raises :
  let self :=
    {| IMDB.state := None; IMDB.db := {["a" := "1"]};
       IMDB.transactions := []; IMDB.counts := ∅ |} in
  IMDB.transitions IMDB.init ["BEGIN"; "SET a 1"; "COMMIT"] = Ok (self, [])
  ∧ IMDB.transition self "SET a 2" = Raise (KeyError "1")
  ∧ IMDB.run IMDB.init
      [IMDB.Line "BEGIN"; IMDB.Line "SET a 1"; IMDB.Line "COMMIT";
       IMDB.Line "SET a 2"; IMDB.Line "GET a"; IMDB.Line "END"]
    = (self, [">>> Bye!"], Some (KeyError "1")).
Proof. repeat split; vm_compute; reflexivity. Qed.

(** * Further properties of the store *)

(** ** [set] and [delete] on the entries and on the index *)

(** X1. After a [set] that returns, the key reads the value set and every
    other key reads as before; the count of every value moves by one up for
    the value set and by one down for the old value of the key, the latter
    only when that old value is a non-empty string. *)
Theorem X1_set_effect (self self' : IMDB.t) (key value k v : string) :
  IMDB.set self key value = Ok self' →
  IMDB.get self' k = (if decide (k = key) then value else IMDB.get self k)
  ∧ IMDB.count self' v
    = IMDB.count self v
      + (if decide (value = v) then 1 else 0)
      - match IMDB.db self !! key with
        | Some old => if truthy old && bool_decide (old = v) then 1 else 0
        | None => 0
        end.
Proof.
  intros Hset. split.
  - apply set_frame in Hset as (Hdb & _ & _). unfold IMDB.get. rewrite Hdb.
    case_decide as Hk.
    + subst k. by rewrite lookup_insert_eq.
    + by rewrite lookup_insert_ne.
  - unfold IMDB.set in Hset. unfold IMDB.count.
    destruct (IMDB.db self !! key) as [old|]; simpl in Hset.
    + destruct (truthy old); simpl in Hset.
      * destruct (IMDB.counts self !! old) as [n|] eqn:Hold; simpl in Hset;
          [|done].
        injection Hset as <-. simpl.
        rewrite count_increment, count_decrement by done.
        case_bool_decide; case_decide; done || lia.
      * injection Hset as <-. simpl. rewrite count_increment. lia.
    + injection Hset as <-. simpl. rewrite count_increment. lia.
Qed.

Lemma X1_set_effect_witness :
  let self :=
    {| IMDB.state := None; IMDB.db := {["a" := "5"]};
       IMDB.transactions := []; IMDB.counts := {["5" := 1]} |} in
  let self' :=
    {| IMDB.state := None; IMDB.db := <["a" := "6"]> {["a" := "5"]};
       IMDB.transactions := [];
       IMDB.counts := <["6" := 1]> (<["5" := 1 - 1]> {["5" := 1]}) |} in
  IMDB.set self "a" "6" = Ok self'
  ∧ IMDB.get self' "a" = "6"
  ∧ IMDB.count self' "5" = 0.
Proof.
  assert (Hset :
    IMDB.set
      {| IMDB.state := None; IMDB.db := {["a" := "5"]};
         IMDB.transactions := []; IMDB.counts := {["5" := 1]} |} "a" "6"
    = Ok {| IMDB.state := None; IMDB.db := <["a" := "6"]> {["a" := "5"]};
            IMDB.transactions := [];
            IMDB.counts := <["6" := 1]> (<["5" := 1 - 1]> {["5" := 1]}) |})
    by (vm_compute; reflexivity).
  split; [exact Hset|].
  destruct (X1_set_effect _ _ "a" "6" "a" "5" Hset) as [Hget Hcount].
  split; [exact Hget|]. rewrite Hcount. vm_compute. reflexivity.
Defined.

(** X2. [set] raises exactly when the key holds a non-empty value that has
    no entry in [counts], and the exception is the [KeyError] of that
    value. *)
Theorem X2_set_raises_iff (self : IMDB.t) (key value : string) (e : exn) :
  IMDB.set self key value = Raise e
  ↔ ∃ old, IMDB.db self !! key = Some old ∧ truthy old = true
           ∧ IMDB.counts self !! old = None ∧ e = KeyError old.
Proof.
  unfold IMDB.set. split.
  - destruct (IMDB.db self !! key) as [old|]; simpl; [|done].
    destruct (truthy old) eqn:Hold; simpl; [|done].
    destruct (IMDB.counts self !! old) eqn:Hcount; simpl; [done|].
    intros [= <-]. by exists old.
  - intros (old & -> & -> & -> & ->). done.
Qed.

(** X3. [delete] never raises. Afterwards the key reads "NULL" and every
    other key reads as before; deleting an absent key changes nothing, and
    deleting twice is deleting once. The count of the value held goes down
    by one when that value has an entry in [counts]. *)
Theorem X3_delete_effect (self : IMDB.t) (key k v : string) :
  IMDB.get (IMDB.delete self key) k
  = (if decide (k = key) then "NULL" else IMDB.get self k)
  ∧ (IMDB.delete self key = self ↔ IMDB.db self !! key = None)
  ∧ IMDB.delete (IMDB.delete self key) key = IMDB.delete self key
  ∧ IMDB.count (IMDB.delete self key) v
    = IMDB.count self v
      - match IMDB.db self !! key with
        | Some old =>
            if bool_decide (old = v ∧ is_Some (IMDB.counts self !! old))
            then 1 else 0
        | None => 0
        end.
Proof.
  unfold IMDB.delete, IMDB.get, IMDB.count.
  destruct self as [st d txns c]. simpl.
  destruct (d !! key) as [old|] eqn:Hkey; simpl.
  - split; [|split; [|split]].
    + case_decide as Hk.
      * subst k. by rewrite lookup_delete_eq.
      * by rewrite lookup_delete_ne.
    + split; [|done]. intros [= Hd _].
      apply (f_equal (λ m : gmap string string, m !! key)) in Hd.
      rewrite lookup_delete_eq, Hkey in Hd. done.
    + by rewrite lookup_delete_eq.
    + destruct (c !! old) as [n|] eqn:Hold.
      * rewrite count_decrement by done.
        case_bool_decide as Hb; case_decide; try lia.
        -- destruct Hb as [? _]. done.
        -- exfalso. apply Hb. eauto.
      * rewrite bool_decide_eq_false_2; [lia|]. by intros [_ [? ?]].
  - rewrite Hkey. repeat split; try done; try lia.
    case_decide as Hk; [by subst k; rewrite Hkey|done].
Qed.

(** ** The pending events, read and committed *)

Lemma latest_touching_snoc (key : string) (evs : list Event) (e : Event) :
  latest_touching key (evs ++ [e])
  = if decide (event_key e = key) then Some e else latest_touching key evs.
Proof.
  rewrite latest_touching_app. unfold latest_touching at 1.
  rewrite filter_cons, filter_nil. by case_decide.
Qed.

(** What [txn_get] returns, by the latest event touching the key. *)
Lemma txn_get_latest (self : IMDB.t) (key : string) :
  IMDB.txn_get self key
  = match latest_touching key (chronological (IMDB.transactions self)) with
    | Some e => event_outcome e
    | None => Some (IMDB.get self key)
    end.
Proof.
  unfold IMDB.txn_get.
  rewrite txn_get_txns_chronological, txn_get_events_latest.
  by destruct (latest_touching _ _).
Qed.

(** The entry of a key after the events have been applied. *)
Lemma apply_events_lookup (key : string) (evs : list Event)
    (d : gmap string string) :
  foldl IMDB.apply_event d evs !! key
  = match latest_touching key evs with
    | Some e => event_outcome e
    | None => d !! key
    end.
Proof.
  induction evs as [|e evs IH] using rev_ind; [done|].
  rewrite foldl_app, latest_touching_snoc. simpl.
  destruct e as [k v|k]; simpl.
  - case_decide as Hk.
    + subst k. by rewrite lookup_insert_eq.
    + by rewrite lookup_insert_ne.
  - assert (Hdel : ∀ m : gmap string string,
      match m !! k with Some _ => delete k m | None => m end = delete k m).
    { intros m. destruct (m !! k) eqn:Hm; [done|]. by rewrite delete_id. }
    rewrite Hdel. case_decide as Hk.
    + subst k. by rewrite lookup_delete_eq.
    + by rewrite lookup_delete_ne.
Qed.

(** X4. COMMIT makes visible what the transaction saw: it never raises,
    prints nothing, empties the stack, and afterwards every key reads what
    [txn_get] returned for it just before, "NULL" standing for [None]. *)
Theorem X4_commit_reads_what_txn_get_saw (self : IMDB.t) :
  ∃ self',
    IMDB.transition self "COMMIT" = Ok (self', [])
    ∧ IMDB.transactions self' = []
    ∧ IMDB.state self' = IMDB.state self
    ∧ ∀ key, IMDB.get self' key = default "NULL" (IMDB.txn_get self key).
Proof.
  rewrite transition_commit. eexists. split; [done|].
  repeat split. intros key. unfold IMDB.get.
  unfold IMDB.with_transactions. cbn [IMDB.db].
  rewrite apply_transactions_chronological, apply_events_lookup.
  rewrite txn_get_latest.
  destruct (latest_touching _ _) as [[]|]; done.
Qed.

(** The tracked set of [txn_count] after the events, started empty. *)
Lemma txn_count_events_keys (value : string) (evs : list Event) (c : Z) :
  (foldl (IMDB.txn_count_event value) (c, ∅) evs).2
  = pending_holders value evs.
Proof.
  induction evs as [|e evs IH] using rev_ind.
  - apply set_eq. intros k. unfold pending_holders. simpl.
    rewrite elem_of_filter, elem_of_empty. tauto.
  - rewrite foldl_app. simpl.
    destruct (foldl (IMDB.txn_count_event value) (c, ∅) evs) as [c' keys].
    simpl in IH. subst keys.
    assert (Hin : ∀ k, k ∈ pending_holders value (evs ++ [e])
      ↔ if decide (event_key e = k) then e = SET k value
        else k ∈ pending_holders value evs).
    { intros k. unfold pending_holders.
      rewrite !elem_of_filter, !elem_of_list_to_set, fmap_app, elem_of_app.
      rewrite latest_touching_snoc. simpl. rewrite list_elem_of_singleton.
      case_decide as Hk.
      - split; [intros [Heq _]; congruence|].
        intros He. split; [congruence|by right].
      - rewrite elem_of_filter, elem_of_list_to_set.
        split; [intros [? [?|?]]; [done|congruence]|].
        intros [? ?]. split; [done|by left]. }
    apply set_eq. intros k. rewrite Hin. clear Hin.
    destruct e as [k' v'|k']; simpl.
    + destruct (bool_decide_reflect (k' ∈ pending_holders value evs))
        as [Hk'|Hk']; simpl.
      * destruct (bool_decide_reflect (v' ≠ value)) as [Hv|Hv]; simpl.
        -- rewrite elem_of_difference, elem_of_singleton.
           case_decide; intuition congruence.
        -- apply dec_stable in Hv.
           rewrite (bool_decide_eq_false_2 (k' ∉ _)) by tauto. simpl.
           case_decide; intuition congruence.
      * rewrite (bool_decide_eq_true_2 (k' ∉ _)) by done. simpl.
        case_bool_decide as Hv; simpl.
        -- rewrite elem_of_union, elem_of_singleton.
           case_decide; intuition congruence.
        -- case_decide; intuition congruence.
    + case_bool_decide as Hk'; simpl.
      * rewrite elem_of_difference, elem_of_singleton.
        case_decide; intuition congruence.
      * case_decide; intuition congruence.
Qed.

(** X5. [txn_count] is the committed count plus the number of keys whose
    latest pending event sets them to the counted value: pending events add
    to the committed count and never take a committed key out of it. *)
Theorem X5_txn_count_pending_holders (self : IMDB.t) (value : string) :
  IMDB.txn_count self value
  = IMDB.count self value
    + Z.of_nat
        (size (pending_holders value
                 (chronological (IMDB.transactions self)))).
Proof.
  unfold IMDB.txn_count. rewrite txn_count_loop_chronological.
  pose proof (txn_count_events_tracked value
    (chronological (IMDB.transactions self)) (IMDB.count self value, ∅)) as H.
  rewrite txn_count_events_keys in H. cbn [fst snd] in H.
  rewrite size_empty in H. lia.
Qed.

(** ** Commands inside a transaction *)






(** ** What a command can and cannot do *)








(** X11. COMMIT with nothing pending, no open transaction or only empty
    logs, changes neither the entries nor the counts; it leaves the stack
    empty and prints nothing. *)
Theorem X11_commit_nothing_pending (self : IMDB.t) :
  chronological (IMDB.transactions self) = [] →
  IMDB.transition self "COMMIT" = Ok (IMDB.with_transactions self [], []).
Proof.
  intros Hnone. rewrite transition_commit. do 2 f_equal.
  pose proof (apply_transactions_chronological self) as Hdb.
  rewrite Hnone in Hdb. cbn [foldl] in Hdb.
  unfold IMDB.with_transactions. rewrite Hdb. by destruct self.
Qed.

Lemma X11_commit_nothing_pending_witness :
  let self :=
    {| IMDB.state := None; IMDB.db := {["a" := "5"]};
       IMDB.transactions := [Transaction_init; Transaction_init];
       IMDB.counts := {["5" := 1]} |} in
  IMDB.transition self "COMMIT" = Ok (IMDB.with_transactions self [], []).
Proof.
  apply (X11_commit_nothing_pending
           {| IMDB.state := None; IMDB.db := {["a" := "5"]};
              IMDB.transactions := [Transaction_init; Transaction_init];
              IMDB.counts := {["5" := 1]} |}).
  reflexivity.
Defined.

(** ** The loop of [run] *)









(** ** Splitting a command *)

Lemma split_from_rstrip (s word : string) :
  split_from None word (rstrip s) = split_from None word s.
Proof.
  revert word. induction s as [|c s IH]; intros word; [done|].
  cbn [rstrip]. destruct (rstrip s) as [|c' r] eqn:Hr.
  - destruct (isspace c) eqn:Hc; simpl; rewrite Hc.
    + destruct word; by rewrite <- IH.
    + destruct word; by rewrite <- IH.
  - simpl. destruct (isspace c); destruct word; by rewrite <- IH.
Qed.

Lemma split_from_lstrip (s : string) :
  split_from None EmptyString (lstrip s) = split_from None EmptyString s.
Proof.
  induction s as [|c s IH]; [done|]. simpl.
  destruct (isspace c) eqn:Hc; [done|]. simpl. by rewrite Hc.
Qed.

(** X14. Stripping a command first does not change its words: the DELETE
    branch, which splits the command as read, sees the same parts as the GET
    and COUNT branches, which strip it first. *)
Theorem X14_split_strip (s : string) : split (strip s) = split s.
Proof.
  unfold split, strip. by rewrite split_from_rstrip, split_from_lstrip.
Qed.

(** ** The index and the replay on examples *)

Lemma direct_writes_consistent_witness :
  let ops := [OpSet "a" "5"; OpSet "b" "5"; OpSet "a" "6"; OpDelete "b"] in
  Forall (λ op, match op with
                | OpSet _ value => truthy value = true
                | OpDelete _ => True
                end) ops
  ∧ ∃ self,
      replay_direct IMDB.init (map store_op_event ops) = Ok self
      ∧ ∀ v, IMDB.count self v = Z.of_nat (holders (IMDB.db self) v).
Proof.
  assert (Hops : Forall (λ op, match op with
                               | OpSet _ value => truthy value = true
                               | OpDelete _ => True
                               end)
                   [OpSet "a" "5"; OpSet "b" "5"; OpSet "a" "6"; OpDelete "b"])
    by (repeat constructor).
  split; [exact Hops|]. exact (direct_writes_consistent _ Hops).
Defined.

Lemma direct_commands_consistent_witness :
  let commands := ["SET a 5"; "set b 5"; "SET a"; "DELETE b"; "DELETE"] in
  Forall (λ command, is_write command = true) commands
  ∧ ∃ self out,
      IMDB.transitions IMDB.init commands = Ok (self, out)
      ∧ ∀ v, IMDB.count self v = Z.of_nat (holders (IMDB.db self) v).
Proof.
  assert (Hall : Forall (λ command, is_write command = true)
                   ["SET a 5"; "set b 5"; "SET a"; "DELETE b"; "DELETE"])
    by (repeat constructor).
  split; [exact Hall|]. exact (direct_commands_consistent _ Hall).
Defined.

Lemma commit_entries_replay_witness :
  let self :=
    {| IMDB.state := None; IMDB.db := {["a" := "5"]};
       IMDB.transactions :=
         [ {| events := [SET "a" "6"] |}; {| events := [DELETE "b"] |} ];
       IMDB.counts := {["5" := 1]} |} in
  let direct :=
    {| IMDB.state := None; IMDB.db := {["a" := "6"]};
       IMDB.transactions := [];
       IMDB.counts := <["6" := 1]> {["5" := 0]} |} in
  replay_direct (IMDB.with_transactions self [])
    (chronological (IMDB.transactions self)) = Ok direct
  ∧ ∃ committed,
      IMDB.transition self "COMMIT" = Ok (committed, [])
      ∧ IMDB.db committed = IMDB.db direct
      ∧ IMDB.transactions committed = IMDB.transactions direct
      ∧ IMDB.transactions committed = []
      ∧ IMDB.counts committed = IMDB.counts self.
Proof.
  assert (Hreplay :
    replay_direct
      (IMDB.with_transactions
         {| IMDB.state := None; IMDB.db := {["a" := "5"]};
            IMDB.transactions :=
              [ {| events := [SET "a" "6"] |}; {| events := [DELETE "b"] |} ];
            IMDB.counts := {["5" := 1]} |} [])
      (chronological
         [ {| events := [SET "a" "6"] |}; {| events := [DELETE "b"] |} ])
    = Ok {| IMDB.state := None; IMDB.db := {["a" := "6"]};
            IMDB.transactions := [];
            IMDB.counts := <["6" := 1]> {["5" := 0]} |})
    by (vm_compute; reflexivity).
  split; [exact Hreplay|]. exact (commit_entries_replay _ _ Hreplay).
Defined.

(** ** Opening a transaction *)

(** X18. BEGIN never raises and prints nothing; it pushes one empty log and
    changes no read: every key and every value reads through the new stack
    as it did through the old one. *)
Theorem X18_begin_keeps_reads (self : IMDB.t) (key value : string) :
  ∃ self',
    IMDB.transition self "BEGIN" = Ok (self', [])
    ∧ IMDB.transactions self' = IMDB.transactions self ++ [Transaction_init]
    ∧ IMDB.db self' = IMDB.db self
    ∧ IMDB.counts self' = IMDB.counts self
    ∧ IMDB.txn_get self' key = IMDB.txn_get self key
    ∧ IMDB.txn_count self' value = IMDB.txn_count self value.
Proof.
  rewrite transition_begin. eexists. split; [done|].
  do 3 (split; [done|]). split.
  - rewrite !txn_get_latest. cbn [IMDB.with_transactions IMDB.transactions].
    rewrite chronological_snoc. simpl. by rewrite app_nil_r.
  - unfold IMDB.txn_count. rewrite !txn_count_loop_chronological.
    cbn [IMDB.with_transactions IMDB.transactions].
    rewrite chronological_snoc. simpl. by rewrite app_nil_r.
Qed.
